(** * logtui: network registry and streaming scanner

    A shallow embedding of the two parts of logtui that carry its logic:

    - [src/lib/config.js]: the built-in network table, the persisted cache,
      [fetchNetworks] (refresh / live discovery) and [getNetworkUrl];
    - [createScanner] in the scanner module: the construction of the
      counters from the event signatures and the [while (true)] loop that
      receives batches, classifies their logs and reports progress.

    JavaScript objects used as dictionaries are finite maps ([gmap]) from
    strings; a function that may throw returns a [Completion]; module-level
    and closure-level mutable variables are fields of an explicit state that
    every operation threads.

    Conventions of the embedding:
    - only own properties of an object are looked up (names such as
      constructor, inherited from [Object.prototype], are not modelled);
    - counters and block numbers are natural numbers ([N]): JavaScript
      numbers are exact on integers below 2^53;
    - times and fractions are rationals ([Q]); the rounding of a double
      division is monotone and does not affect the order facts proved here;
    - the cache file is seen through [JSON.parse]: it is missing, unreadable,
      or an object of name/URL strings;
    - the TUI is reduced to the values last written to the progress bar, the
      statistics box, the distribution box and the lines of the log window;
      the summary printed after the loop is left out. *)

From stdpp Require Import gmap strings list fin_maps.
From Stdlib Require Import Ascii QArith Qminmax.

Local Open Scope string_scope.
Local Open Scope stdpp_scope.
Close Scope Q_scope.

(** ** JavaScript completions and truthiness *)

(** The outcome of running a piece of JavaScript: a value, or a thrown
    [Error] of which the code only ever reads [.message]. *)
Inductive Completion (A : Type) : Type :=
| Normal (value : A)
| Throw (message : string).
Arguments Normal {A} value.
Arguments Throw {A} message.

(** [!s] is true exactly for the empty string. *)
Definition truthy (s : string) : bool :=
  match s with
  | EmptyString => false
  | String _ _ => true
  end.

Module Config.

(** *** Module state *)

(** What the file at [CACHE_FILE] holds, as far as this module can see it. *)
Inductive CacheFile : Type :=
| NoFile                                   (* fs.existsSync is false *)
| Unreadable (message : string)            (* readFileSync or JSON.parse throws *)
| Parsed (networks : gmap string string).  (* JSON.parse(data) *)

Inductive ConsoleLine : Type :=
| debug (text : string)
| warn (text : string).

(** [NETWORKS] is the exported, reassignable binding; [cache] is the file;
    [write_error] is [Some m] when [fs.writeFileSync] would throw an error
    with message [m]; [requests] counts the calls of [fetch] issued so far;
    [console] is what was printed, oldest line first. *)
Record World : Type := mkWorld {
  NETWORKS : gmap string string;
  cache : CacheFile;
  write_error : option string;
  requests : nat;
  console : list ConsoleLine
}.

(** Computations of the module: they read and write the [World] and may
    throw.  A thrown error keeps the writes made before it. *)
Definition Js (A : Type) : Type := World → Completion A * World.

#[export] Instance js_ret : MRet Js := λ A a w, (Normal a, w).
#[export] Instance js_bind : MBind Js := λ A B k c w,
  match c w with
  | (Normal a, w') => k a w'
  | (Throw m, w') => (Throw m, w')
  end.

(** [try { body } catch (error) { handler(error.message) }] *)
Definition try_catch {A} (body : Js A) (handler : string → Js A) : Js A :=
  λ w, match body w with
       | (Normal a, w') => (Normal a, w')
       | (Throw m, w') => handler m w'
       end.

Definition throw {A} (message : string) : Js A := λ w, (Throw message, w).

Definition print (l : ConsoleLine) : Js unit := λ w,
  (Normal (), mkWorld (NETWORKS w) (cache w) (write_error w) (requests w)
                      (console w ++ [l])).

Definition set_NETWORKS (n : gmap string string) : Js unit := λ w,
  (Normal (), mkWorld n (cache w) (write_error w) (requests w) (console w)).

(** *** Constants *)

Definition DEFAULT_NETWORKS : gmap string string :=
  list_to_map
    [ ("eth", "http://eth.hypersync.xyz");
      ("arbitrum", "http://arbitrum.hypersync.xyz");
      ("optimism", "http://optimism.hypersync.xyz");
      ("base", "http://base.hypersync.xyz");
      ("polygon", "http://polygon.hypersync.xyz") ].

(** *** The cache file *)

(** The body of the [try] in [loadNetworksFromCache]: [Some networks] when
    the [return networks] inside the [if] is reached, [None] when the file
    does not exist and control falls out of the [try]. *)
Definition read_cache : Js (option (gmap string string)) := λ w,
  match cache w with
  | NoFile => (Normal None, w)
  | Unreadable m => (Throw m, w)
  | Parsed networks =>
      (print (debug "Loaded networks from cache");;
       mret (Some networks)) w
  end.

Definition loadNetworksFromCache : Js (gmap string string) :=
  found ← try_catch read_cache
            (λ message,
               print (warn ("Failed to load networks from cache: " +:+ message));;
               mret None);
  match found with
  | Some networks => mret networks
  | None => mret DEFAULT_NETWORKS
  end.

(** [JSON.stringify] followed by [writeFileSync]; reading the file back and
    parsing it gives the object that was written. *)
Definition write_cache (networks : gmap string string) : Js unit := λ w,
  match write_error w with
  | Some m => (Throw m, w)
  | None => (Normal (), mkWorld (NETWORKS w) (Parsed networks) (write_error w)
                                (requests w) (console w))
  end.

Definition saveNetworksToCache (networks : gmap string string) : Js unit :=
  try_catch
    (write_cache networks;;
     print (debug "Saved networks to cache"))
    (λ message,
       print (warn ("Failed to save networks to cache: " +:+ message))).

(** *** Live discovery *)

(** One record of the directory's reply. *)
Record ApiNetwork : Type := mkApiNetwork {
  name : string;
  ecosystem : string
}.

(** What [fetch(NETWORKS_API_URL)] followed by [response.json()] gives. *)
Inductive ApiReply : Type :=
| Rejected (message : string)   (* fetch or response.json() rejects, or the
                                   body is not an array and forEach throws *)
| NotOk (status : string)       (* response.ok is false; the status as
                                   printed by the template literal *)
| Body (networks : list ApiNetwork).

Definition fetch_json (api : ApiReply) : Js (list ApiNetwork) := λ w,
  let w' := mkWorld (NETWORKS w) (cache w) (write_error w) (S (requests w))
                    (console w) in
  match api with
  | Rejected m => (Throw m, w')
  | NotOk status => (Throw ("API responded with status: " +:+ status), w')
  | Body networks => (Normal networks, w')
  end.

(** The callback of [networks.forEach]. *)
Definition add_network (result : gmap string string) (network : ApiNetwork)
  : gmap string string :=
  if decide (ecosystem network ≠ "evm") then result
  else
    let url := "http://" +:+ name network +:+ ".hypersync.xyz" in
    <[name network := url]> result.

Definition process_response (networks : list ApiNetwork) : gmap string string :=
  foldl add_network ∅ networks.

(** The first [if] of [fetchNetworks]: [Some cachedNetworks] when it
    returns, [None] when control goes on to the [try]. *)
Definition use_cache (forceRefresh : bool) : Js (option (gmap string string)) :=
  if negb forceRefresh then
    cachedNetworks ← loadNetworksFromCache;
    if decide (size DEFAULT_NETWORKS < size cachedNetworks) then
      set_NETWORKS cachedNetworks;;
      mret (Some cachedNetworks)
    else mret None
  else mret None.

Definition discover (api : ApiReply) : Js (gmap string string) :=
  try_catch
    (print (debug "Fetching networks from API...");;
     networks ← fetch_json api;
     let result := process_response networks in
     set_NETWORKS result;;
     saveNetworksToCache result;;
     mret result)
    (λ message,
       print (warn ("Warning: Failed to fetch networks: " +:+ message));;
       print (warn "Using previously cached or default networks instead.");;
       cachedNetworks ← loadNetworksFromCache;
       set_NETWORKS cachedNetworks;;
       mret cachedNetworks).

Definition fetchNetworks (forceRefresh : bool) (api : ApiReply)
  : Js (gmap string string) :=
  early ← use_cache forceRefresh;
  match early with
  | Some cachedNetworks => mret cachedNetworks
  | None => discover api
  end.

Definition refreshNetworks (api : ApiReply) : Js (gmap string string) :=
  fetchNetworks true api.

(** The statements run when the module is loaded: [NETWORKS] starts as a
    copy of the defaults and is replaced by a non-empty cache. *)
Definition module_load : Js unit :=
  set_NETWORKS DEFAULT_NETWORKS;;
  try_catch
    (cachedNetworks ← loadNetworksFromCache;
     if decide (0 < size cachedNetworks) then set_NETWORKS cachedNetworks
     else mret ())
    (λ message,
       print (warn ("Failed to load networks from cache: " +:+ message))).

(** The process before the module is loaded, over a given disk. *)
Definition boot (file : CacheFile) (werr : option string) : World :=
  mkWorld ∅ file werr 0 [].

(** *** Resolution *)

(** [getNetworkUrl]: the message of the error it throws is built from the
    rejected name and the keys of [NETWORKS]. *)
Inductive Resolved : Type :=
| Url (url : string)
| NotSupported (network : string) (available : gmap string string).

Definition getNetworkUrl (network : string) (w : World) : Resolved :=
  match NETWORKS w !! network with
  | Some url => if truthy url then Url url else NotSupported network (NETWORKS w)
  | None => NotSupported network (NETWORKS w)
  end.

(** *** Event signature presets *)

(** One entry of [EVENT_PRESETS]; [title] is the field the source calls
    name (the projection [name] is taken by [ApiNetwork]). *)
Record Preset : Type := mkPreset {
  title : string;
  description : string;
  signatures : list string
}.

(** The object literal, in the order of its keys. *)
Definition EVENT_PRESETS : list (string * Preset) :=
  [ ("uniswap-v3",
     mkPreset "Uniswap V3" "Uniswap V3 core events"
       [ "PoolCreated(address,address,uint24,int24,address)";
         "Burn(address,int24,int24,uint128,uint256,uint256)";
         "Initialize(uint160,int24)";
         "Mint(address,address,int24,int24,uint128,uint256,uint256)";
         "Swap(address,address,int256,int256,uint160,uint128,int24)" ]);
    ("erc20",
     mkPreset "ERC-20" "Standard ERC-20 token events"
       [ "Transfer(address,address,uint256)";
         "Approval(address,address,uint256)" ]);
    ("erc721",
     mkPreset "ERC-721" "Standard ERC-721 NFT events"
       [ "Transfer(address,address,uint256)";
         "Approval(address,address,uint256)";
         "ApprovalForAll(address,address,bool)" ]) ].

(** [obj[key]] on an object given by its entries. *)
Fixpoint property {A} (key : string) (entries : list (string * A)) : option A :=
  match entries with
  | [] => None
  | (k, v) :: rest => if decide (k = key) then Some v else property key rest
  end.

(** [keys.join(", ")] *)
Fixpoint join_comma (keys : list string) : string :=
  match keys with
  | [] => ""
  | [k] => k
  | k :: rest => k +:+ ", " +:+ join_comma rest
  end.

Definition getEventSignatures (presetName : string) : Completion (list string) :=
  match property presetName EVENT_PRESETS with
  | None =>
      Throw ("Preset '" +:+ presetName +:+ "' not found. Available presets: "
             +:+ join_comma (EVENT_PRESETS.*1))
  | Some preset => Normal (signatures preset)
  end.



(** *** The registry as the specification words it *)

(** [refresh] with the three-way order of the specification; [populated]
    says whether the in-memory snapshot was already populated in this
    process. *)
Definition refresh_as_specified (populated : bool) (force : bool)
    (api : ApiReply) : Js (gmap string string) :=
  if force then discover api
  else if populated then (λ w, (Normal (NETWORKS w), w))
  else
    cachedNetworks ← loadNetworksFromCache;
    if decide (size DEFAULT_NETWORKS < size cachedNetworks) then
      set_NETWORKS cachedNetworks;;
      mret cachedNetworks
    else discover api.

(** *** Vocabulary of the statements about the registry *)

(** What [loadNetworksFromCache] returns over a given file. *)
Definition loaded (file : CacheFile) : gmap string string :=
  match file with
  | Parsed networks => networks
  | NoFile | Unreadable _ => DEFAULT_NETWORKS
  end.

(** The file has nothing to offer: it is missing, or reading or parsing it
    throws. *)
Definition unusable (file : CacheFile) : Prop :=
  match file with
  | Parsed _ => False
  | NoFile | Unreadable _ => True
  end.

Definition fails (api : ApiReply) : Prop :=
  match api with
  | Body _ => False
  | Rejected _ | NotOk _ => True
  end.

Definition evm_record (network : string) (r : ApiNetwork) : Prop :=
  name r = network ∧ ecosystem r = "evm".

Definition template (network : string) : string :=
  "http://" +:+ network +:+ ".hypersync.xyz".

(** *** A process used in the examples: no cache file on disk, the module
    loaded, then one forced refresh that finds a single network. *)
Definition fresh_process : World := (module_load (boot NoFile None)).2.

Definition after_discovery : World :=
  (fetchNetworks true (Body [mkApiNetwork "gnosis" "evm"]) fresh_process).2.

End Config.

(** ** Properties of the network registry *)

Module ConfigFacts.
Import Config.

Lemma size_DEFAULT_NETWORKS : size DEFAULT_NETWORKS = 5.
Proof. reflexivity. Qed.

Lemma default_urls_follow_template network url :
  DEFAULT_NETWORKS !! network = Some url → url = template network.
Proof.
  intros H.
  assert (Hin : (network, url) ∈ map_to_list DEFAULT_NETWORKS)
    by by apply elem_of_map_to_list.
  revert Hin. vm_compute map_to_list. rewrite !elem_of_cons, elem_of_nil.
  intros [E|[E|[E|[E|[E|[]]]]]]; by inversion E.
Qed.

Lemma template_truthy network : truthy (template network) = true.
Proof. reflexivity. Qed.

Lemma loadNetworksFromCache_run w :
  ∃ out, loadNetworksFromCache w =
         (Normal (loaded (cache w)),
          mkWorld (NETWORKS w) (cache w) (write_error w) (requests w) out).
Proof.
  destruct w as [n f e r c]. unfold loadNetworksFromCache, mbind, js_bind,
    try_catch, read_cache. simpl.
  destruct f as [|m|nets]; simpl; eauto.
Qed.

Lemma foldl_add_network_lookup nets acc network :
  foldl add_network acc nets !! network =
    if decide (Exists (evm_record network) nets)
    then Some (template network) else acc !! network.
Proof.
  revert acc. induction nets as [|r nets IH]; intros acc; cbn [foldl].
  - destruct (decide (Exists (evm_record network) [])) as [H|H];
      [by apply Exists_nil in H | done].
  - rewrite IH. unfold add_network.
    destruct (decide (Exists (evm_record network) nets)) as [Hex|Hnex].
    + rewrite decide_True; [done | by apply Exists_cons_tl].
    + destruct (decide (ecosystem r ≠ "evm")) as [Hne|He].
      * rewrite decide_False; [done|].
        intros [[_ ?]|?]%Exists_cons; [congruence | done].
      * apply dec_stable in He.
        destruct (decide (name r = network)) as [<-|Hn].
        -- rewrite lookup_insert_eq, decide_True; [done|].
           by apply Exists_cons_hd.
        -- rewrite lookup_insert_ne by done.
           rewrite decide_False; [done|].
           intros [[? _]|?]%Exists_cons; [congruence | done].
Qed.

Lemma process_response_lookup nets network :
  process_response nets !! network =
    if decide (Exists (evm_record network) nets)
    then Some (template network) else None.
Proof.
  unfold process_response. rewrite foldl_add_network_lookup.
  by case_decide.
Qed.

(** A successful discovery replaces the snapshot and, when the disk can be
    written, the cache file. *)
Lemma discover_body_run nets w :
  ∃ out, discover (Body nets) w =
    (Normal (process_response nets),
     mkWorld (process_response nets)
             (match write_error w with
              | Some _ => cache w
              | None => Parsed (process_response nets)
              end)
             (write_error w) (S (requests w)) out).
Proof.
  destruct w as [n f e r c].
  unfold discover, try_catch, mbind, js_bind, fetch_json, saveNetworksToCache,
    try_catch, write_cache, print, set_NETWORKS, mret, js_ret; simpl.
  destruct e; simpl; eauto.
Qed.

(** A failed discovery falls back on whatever the cache file gives. *)
Lemma discover_fails_run api w :
  fails api →
  ∃ out, discover api w =
    (Normal (loaded (cache w)),
     mkWorld (loaded (cache w)) (cache w) (write_error w) (S (requests w)) out).
Proof.
  intros Hf. destruct w as [n f e r c].
  unfold discover, try_catch, mbind, js_bind, fetch_json, print,
    set_NETWORKS; simpl.
  destruct api as [m|st|nets]; [| |done]; simpl.
  - match goal with |- context [loadNetworksFromCache ?w] =>
      destruct (loadNetworksFromCache_run w) as [out ->] end; simpl; eauto.
  - match goal with |- context [loadNetworksFromCache ?w] =>
      destruct (loadNetworksFromCache_run w) as [out ->] end; simpl; eauto.
Qed.

(** The cache is preferred, without any request, when it is larger than
    the default set and the refresh is not forced. *)
Lemma fetchNetworks_cached_run api w :
  size DEFAULT_NETWORKS < size (loaded (cache w)) →
  ∃ out, fetchNetworks false api w =
    (Normal (loaded (cache w)),
     mkWorld (loaded (cache w)) (cache w) (write_error w) (requests w) out).
Proof.
  intros Hlt. unfold fetchNetworks, use_cache, mbind, js_bind; simpl.
  destruct (loadNetworksFromCache_run w) as [out ->].
  rewrite decide_True by done. simpl. eauto.
Qed.

Lemma fetchNetworks_discover_run force api w :
  force = true ∨ (size (loaded (cache w)) ≤ size DEFAULT_NETWORKS)%nat →
  ∃ out, fetchNetworks force api w =
         discover api (mkWorld (NETWORKS w) (cache w) (write_error w)
                               (requests w) out).
Proof.
  intros H. unfold fetchNetworks, use_cache, mbind, js_bind.
  destruct force; simpl.
  - destruct w; simpl; eauto.
  - destruct H as [?|Hle]; [done|].
    destruct (loadNetworksFromCache_run w) as [out ->].
    rewrite decide_False by lia. simpl. eauto.
Qed.

(** The code is the specified [refresh] of a registry that never counts as
    populated. *)
Lemma fetchNetworks_as_specified force api w :
  fetchNetworks force api w = refresh_as_specified false force api w.
Proof.
  unfold fetchNetworks, refresh_as_specified, use_cache, mbind, js_bind.
  destruct force; simpl; [done|].
  destruct (loadNetworksFromCache_run w) as [out ->].
  case_decide; done.
Qed.

(** C7, as stated, fails: with no cache file, reading the cache yields the
    five built-in networks, not an empty mapping. *)
Lemma missing_cache_is_not_empty :
  (loadNetworksFromCache (boot NoFile None)).1 ≠ Normal ∅.
Proof.
  intros H.
  apply (f_equal (λ c, match c with Normal m => size m | Throw _ => 0 end)) in H.
  vm_compute in H. discriminate.
Qed.

(** C7 (amended): when the cache file is missing, or reading or parsing it
    throws, [loadNetworksFromCache] returns normally, with the built-in
    default mapping, and changes nothing but the console. *)
Theorem loadNetworksFromCache_unusable w :
  unusable (cache w) →
  ∃ out, loadNetworksFromCache w =
         (Normal DEFAULT_NETWORKS,
          mkWorld (NETWORKS w) (cache w) (write_error w) (requests w) out).
Proof.
  intros Hu. destruct (loadNetworksFromCache_run w) as [out ->].
  exists out. by destruct (cache w).
Qed.

Lemma loadNetworksFromCache_unusable_witness :
  ∃ out, loadNetworksFromCache (boot (Unreadable "Unexpected token") None) =
         (Normal DEFAULT_NETWORKS, mkWorld ∅ (Unreadable "Unexpected token") None 0 out).
Proof.
  apply (loadNetworksFromCache_unusable (boot (Unreadable "Unexpected token") None)).
  simpl. exact I.
Defined.

(** C1, as stated, fails: after a successful discovery that does not list
    it, the default name eth is rejected. *)
Lemma default_name_lost_after_discovery :
  is_Some (DEFAULT_NETWORKS !! "eth") ∧
  getNetworkUrl "eth" after_discovery =
    NotSupported "eth" {[ "gnosis" := "http://gnosis.hypersync.xyz" ]}.
Proof. split; [by eexists | by vm_compute]. Qed.

(** C1 (amended): a name of the built-in default set resolves, to its
    default URL, (a) after any refresh in which the cache file is unusable
    and discovery fails, (b) after loading the module over an unusable cache
    file, and (c) after a discovery that succeeds, exactly when the reply
    has an evm record of that name; otherwise it is rejected, the reply
    having replaced the snapshot. *)
Theorem default_names_resolve network url :
  DEFAULT_NETWORKS !! network = Some url →
  (∀ force api w, unusable (cache w) → fails api →
     getNetworkUrl network (fetchNetworks force api w).2 = Url url)
  ∧ (∀ file werr, unusable file →
     getNetworkUrl network (module_load (boot file werr)).2 = Url url)
  ∧ (∀ force nets w,
     force = true ∨ (size (loaded (cache w)) ≤ size DEFAULT_NETWORKS)%nat →
     getNetworkUrl network (fetchNetworks force (Body nets) w).2 =
       if decide (Exists (evm_record network) nets) then Url url
       else NotSupported network (process_response nets)).
Proof.
  intros Hd. pose proof (default_urls_follow_template _ _ Hd) as ->.
  split; [|split].
  - intros force api w Hu Hf.
    assert (Hl : loaded (cache w) = DEFAULT_NETWORKS) by by destruct (cache w).
    destruct (fetchNetworks_discover_run force api w) as [out ->].
    { right. by rewrite Hl. }
    destruct (discover_fails_run api
      (mkWorld (NETWORKS w) (cache w) (write_error w) (requests w) out) Hf)
      as [out' ->].
    unfold getNetworkUrl; simpl. by rewrite Hl, Hd.
  - intros file werr Hu. unfold module_load, boot, mbind, js_bind, try_catch,
      set_NETWORKS; simpl.
    match goal with |- context [loadNetworksFromCache ?w] =>
      destruct (loadNetworksFromCache_run w) as [out ->] end; simpl.
    assert (Hl : loaded file = DEFAULT_NETWORKS) by by destruct file.
    rewrite Hl. case_decide; unfold getNetworkUrl; simpl; by rewrite ?Hd.
  - intros force nets w Hc.
    destruct (fetchNetworks_discover_run force (Body nets) w Hc) as [out ->].
    match goal with |- context [discover _ ?w'] =>
      destruct (discover_body_run nets w') as [out' ->] end.
    unfold getNetworkUrl; simpl. rewrite process_response_lookup.
    by case_decide.
Qed.

Lemma default_names_resolve_witness :
  getNetworkUrl "polygon"
    (fetchNetworks false (Rejected "getaddrinfo ENOTFOUND") (boot NoFile None)).2
  = Url "http://polygon.hypersync.xyz".
Proof.
  refine (proj1 (default_names_resolve "polygon" "http://polygon.hypersync.xyz" _)
            false (Rejected "getaddrinfo ENOTFOUND") (boot NoFile None) _ _).
  - reflexivity.
  - simpl. exact I.
  - simpl. exact I.
Defined.

(** C2, as stated, fails: a registry populated by an earlier discovery is
    not returned by an unforced refresh; the cache is consulted and, being
    no larger than the default set, discovery is attempted again. *)
Lemma refresh_ignores_populated_snapshot :
  let api := Body [mkApiNetwork "eth" "evm"; mkApiNetwork "base" "evm"] in
  NETWORKS after_discovery = {[ "gnosis" := "http://gnosis.hypersync.xyz" ]}
  ∧ (fetchNetworks false api after_discovery).1 ≠ Normal (NETWORKS after_discovery)
  ∧ (fetchNetworks false api after_discovery).1 ≠
      (refresh_as_specified true false api after_discovery).1.
Proof.
  assert (Hne : ∀ a b : gmap string string,
            a !! "eth" ≠ b !! "eth" → Normal a ≠ Normal b)
    by (intros a b Hab [=]; congruence).
  split; [by vm_compute|]. split; apply Hne; by vm_compute.
Qed.

(** C2 (amended): the in-memory snapshot is never consulted.  An unforced
    refresh returns the cache (the defaults standing in for an unusable
    file) when it has strictly more entries than the default set, and
    issues no request; otherwise, and always when forced, it issues one
    request, and returns the discovered set on success and the cache on
    failure.  Whatever is returned becomes the snapshot. *)
Theorem fetchNetworks_order force api w :
  let cached := loaded (cache w) in
  let r := fetchNetworks force api w in
  (force = false → size DEFAULT_NETWORKS < size cached →
     r.1 = Normal cached ∧ NETWORKS r.2 = cached ∧ requests r.2 = requests w)
  ∧ (force = true ∨ (size cached ≤ size DEFAULT_NETWORKS)%nat →
     requests r.2 = S (requests w) ∧
     match api with
     | Body nets =>
         r.1 = Normal (process_response nets) ∧
         NETWORKS r.2 = process_response nets
     | Rejected _ | NotOk _ =>
         r.1 = Normal cached ∧ NETWORKS r.2 = cached
     end).
Proof.
  intros cached r; subst cached r. split.
  - intros -> Hlt. by destruct (fetchNetworks_cached_run api w Hlt) as [out ->].
  - intros Hc. destruct (fetchNetworks_discover_run force api w Hc) as [out ->].
    destruct api as [m|st|nets].
    + by destruct (discover_fails_run (Rejected m)
        (mkWorld (NETWORKS w) (cache w) (write_error w) (requests w) out) I)
        as [out' ->].
    + by destruct (discover_fails_run (NotOk st)
        (mkWorld (NETWORKS w) (cache w) (write_error w) (requests w) out) I)
        as [out' ->].
    + by destruct (discover_body_run nets
        (mkWorld (NETWORKS w) (cache w) (write_error w) (requests w) out))
        as [out' ->].
Qed.

Lemma fetchNetworks_order_witness :
  requests (fetchNetworks false (NotOk "503") after_discovery).2 = 2.
Proof.
  refine (proj1 (proj2 (fetchNetworks_order false (NotOk "503") after_discovery) _)).
  right. vm_compute. lia.
Defined.

(** *** Further properties of the registry *)






(** X4: a set discovered and saved is what a later refresh returns when
    the service cannot be reached, forced or not. *)
Theorem discovered_set_survives_offline force nets w force' api' :
  force = true ∨ (size (loaded (cache w)) ≤ size DEFAULT_NETWORKS)%nat →
  write_error w = None →
  fails api' →
  let w1 := (fetchNetworks force (Body nets) w).2 in
  let r := fetchNetworks force' api' w1 in
  r.1 = Normal (process_response nets) ∧
  NETWORKS r.2 = process_response nets ∧
  cache r.2 = Parsed (process_response nets).
Proof.
  intros Hc Hw Hf w1 r.
  assert (Hw1 : ∃ out, w1 = mkWorld (process_response nets)
                  (Parsed (process_response nets)) None (S (requests w)) out).
  { subst w1.
    destruct (fetchNetworks_discover_run force (Body nets) w Hc) as [out ->].
    match goal with |- context [discover _ ?w'] =>
      destruct (discover_body_run nets w') as [out' ->] end.
    simpl. rewrite Hw. eauto. }
  destruct Hw1 as [out Hw1]. subst r. rewrite Hw1.
  set (w2 := mkWorld _ _ _ _ _).
  destruct (decide (force' = false ∧
                    size DEFAULT_NETWORKS < size (loaded (cache w2))))
    as [[-> Hlt]|Hno].
  - by destruct (fetchNetworks_cached_run api' w2 Hlt) as [out' ->].
  - destruct (fetchNetworks_discover_run force' api' w2) as [out' ->].
    { destruct force'; [by left | right].
      apply Nat.le_ngt. intros Hlt. by apply Hno. }
    match goal with |- context [discover _ ?w'] =>
      destruct (discover_fails_run api' w' Hf) as [out'' ->] end.
    done.
Qed.

Lemma discovered_set_survives_offline_witness :
  (fetchNetworks false (Rejected "ECONNREFUSED") after_discovery).1
  = Normal (process_response [mkApiNetwork "gnosis" "evm"]).
Proof.
  refine (proj1 (discovered_set_survives_offline true
            [mkApiNetwork "gnosis" "evm"] fresh_process false
            (Rejected "ECONNREFUSED") _ _ _)).
  - left. reflexivity.
  - reflexivity.
  - simpl. exact I.
Defined.

(** X5: loading the module leaves a snapshot that is never empty: the
    content of the cache file when that is a non-empty object, the
    built-in defaults otherwise; nothing is requested or written. *)
Theorem module_load_snapshot file werr :
  let w := (module_load (boot file werr)).2 in
  NETWORKS w =
    (if decide (0 < size (loaded file)) then loaded file else DEFAULT_NETWORKS)
  ∧ NETWORKS w ≠ ∅ ∧ cache w = file ∧ requests w = 0.
Proof.
  intros w. subst w. unfold module_load, boot, mbind, js_bind, try_catch,
    set_NETWORKS; simpl.
  match goal with |- context [loadNetworksFromCache ?w] =>
    destruct (loadNetworksFromCache_run w) as [out ->] end; simpl.
  assert (Hd : DEFAULT_NETWORKS ≠ ∅).
  { intros E. pose proof size_DEFAULT_NETWORKS as H5.
    rewrite E, map_size_empty in H5. discriminate. }
  case_decide as Hs; simpl; repeat split; try done.
  intros E. rewrite E, map_size_empty in Hs. lia.
Qed.



End ConfigFacts.

(** ** The scanner *)

Module Scanner.

(** *** Data received from the stream *)

(** A log as the loop reads it: [topics] is [None] when the field is
    missing or is not an array; an element is [None] when it is [null] or
    [undefined]. *)
Record Log : Type := mkLog {
  topics : option (list (option string))
}.

(** A response: [nextBlock] is [None] when the field is missing; [logs] is
    [None] when [res.data] or [res.data.logs] is missing or not an array;
    an element of [logs] is [None] when it is [null]. *)
Record Response : Type := mkResponse {
  nextBlock : option N;
  logs : option (list (option Log))
}.

Inductive Recv : Type :=
| recv_null
| recv_response (res : Response)
| recv_throws (message : string).

(** One turn of the loop as the outside world determines it: what
    [stream.recv()] gives and what [performance.now()] reads (in
    milliseconds) when the turn computes its time statistics. *)
Record Tick : Type := mkTick {
  received : Recv;
  now : Q
}.

(** What [decoder.decodeLogs([log])] gives for the sampled log, as far as
    the loop looks at it. *)
Inductive Decoded : Type :=
| NothingDecoded                  (* no array, an empty one, or a falsy first element *)
| DecodedLog (event : option string).  (* JSON text of [decodedLogs[0].event], if truthy *)

(** *** What the scanner shows *)

Inductive LogLine : Type :=
| ReachedTip
| MissingNextBlock
| SampleEvent (block : N) (eventInfo : string)
| DecodeWarning (message : string)
| BlockProgress (block total : N) (eventsPerSecond : Q)
| ErrorLine (message : string).

(** The content of the statistics box.  [eventsPerSecond] is the quotient
    that [toFixed(1)] then renders. *)
Record Stats : Type := mkStats {
  currentBlock : N;
  progress : Q;
  totalEvents : N;
  seconds : Q;
  eventsPerSecond : Q
}.

Inductive Status : Type :=
| Streaming
| Complete
| Failed.

(** *** The state of one scan

    [fromBlock] is [query.fromBlock]; [eventCounts] is the counter object,
    whose keys Total and Unknown share one name space with the display
    names; [progressBar] is the last fraction given to [updateProgressBar];
    [distribution] is the counter object as last drawn. *)
Record Scan : Type := mkScan {
  fromBlock : N;
  eventCounts : gmap string N;
  lastLogUpdate : N;
  lastDistributionUpdate : N;
  progressBar : Q;
  stats : option Stats;
  distribution : gmap string N;
  logWindow : list LogLine;
  status : Status
}.

Definition log_line (l : LogLine) (s : Scan) : Scan :=
  mkScan (fromBlock s) (eventCounts s) (lastLogUpdate s)
         (lastDistributionUpdate s) (progressBar s) (stats s) (distribution s)
         (logWindow s ++ [l]) (status s).

Definition set_eventCounts (c : gmap string N) (s : Scan) : Scan :=
  mkScan (fromBlock s) c (lastLogUpdate s) (lastDistributionUpdate s)
         (progressBar s) (stats s) (distribution s) (logWindow s) (status s).

(** *** Helpers of the module *)

(** [sig.split("(")[0]]: the text before the first parenthesis. *)
Fixpoint split_head (sig : string) : string :=
  match sig with
  | EmptyString => EmptyString
  | String c rest =>
      if Ascii.eqb c "("%char then EmptyString else String c (split_head rest)
  end.

(** [\d] and [\w] of a regular expression without the unicode flag. *)
Definition is_digit (c : ascii) : bool :=
  let n := nat_of_ascii c in (48 <=? n)%nat && (n <=? 57)%nat.

Definition is_word (c : ascii) : bool :=
  let n := nat_of_ascii c in
  is_digit c || ((65 <=? n)%nat && (n <=? 90)%nat)
  || ((97 <=? n)%nat && (n <=? 122)%nat) || (n =? 95)%nat.

(** The length of the run of digits a text starts with. *)
Fixpoint digit_run (text : string) : nat :=
  match text with
  | EmptyString => 0
  | String c rest => if is_digit c then S (digit_run rest) else 0
  end.

(** The lookahead [(?=(\d{3})+(?!\d))]: the text starts with a run of
    digits whose length is a positive multiple of three. *)
Definition groups_ahead (text : string) : bool :=
  let n := digit_run text in (0 <? n)%nat && (n `mod` 3 =? 0)%nat.

(** [text.replace(/\B(?=(\d{3})+(?!\d))/g, ",")], read from left to
    right; [prev_word] says whether the character before is a word
    character.  Before a digit, [\B] holds exactly in that case. *)
Fixpoint insert_commas (prev_word : bool) (text : string) : string :=
  match text with
  | EmptyString => EmptyString
  | String c rest =>
      let tail := String c (insert_commas (is_word c) rest) in
      if prev_word && groups_ahead text then String ","%char tail else tail
  end.

(** [formatNumber], on [num.toString()]; [None] is [null] or
    [undefined]. *)
Definition formatNumber (num : option string) : string :=
  match num with
  | None => "0"
  | Some text => insert_commas false text
  end.

(** [safeStringify] on the JSON text of its argument. *)
Definition safeStringify (str : string) : string :=
  if decide (String.length str ≤ 100)%nat then str
  else String.substring 0 100 str +:+ "...".

(** [m.k++] on a counter that exists. *)
Definition increment (k : string) (m : gmap string N) : gmap string N :=
  alter N.succ k m.

(** [log.topics[0]] when the guard
    [!log.topics || !Array.isArray(log.topics) || !log.topics[0]] lets it
    through. *)
Definition first_topic (log : Log) : option string :=
  match topics log with
  | Some (Some topic0 :: _) => if truthy topic0 then Some topic0 else None
  | _ => None
  end.

(** [Math.min(nextBlock / height, 1)] for a positive [nextBlock]: the
    quotient by zero is [Infinity], which [Math.min] cuts to 1. *)
Definition progress_of (nextBlock : positive) (height : N) : Q :=
  match height with
  | N0 => 1%Q
  | Npos h => Qmin (Zpos nextBlock # h) 1
  end.

(** [Math.max((currentTime - startTime) / 1000, 0.1)] *)
Definition elapsed_seconds (startTime currentTime : Q) : Q :=
  Qmax ((currentTime - startTime) / 1000) (1 # 10).

(** The object literals before [eventSignatures.forEach]: an empty
    [topic0ToName] and [eventCounts] with Total and Unknown at 0. *)
Definition empty_tables : gmap string string * gmap string N :=
  (∅, {[ "Total" := 0%N; "Unknown" := 0%N ]}).

Section WithClient.

(** viem's hashing and the client's decoder. *)
Variable keccak256 : string → string.
Variable toHex : string → string.
Variable decodeLogs : Log → Completion Decoded.

(** The callback of [eventSignatures.forEach], on the pair
    ([topic0ToName], [eventCounts]). *)
Definition init_signature (acc : gmap string string * gmap string N)
    (sig : string) : gmap string string * gmap string N :=
  let name := split_head sig in
  let topic0 := keccak256 (toHex sig) in
  (<[topic0 := name]> acc.1, <[name := 0%N]> acc.2).

Definition init_tables (eventSignatures : list string)
  : gmap string string * gmap string N :=
  foldl init_signature empty_tables eventSignatures.

Definition topic0_list (eventSignatures : list string) : list string :=
  (λ sig, keccak256 (toHex sig)) <$> eventSignatures.

(** The callback of [res.data.logs.forEach]. *)
Definition count_log (topic0ToName : gmap string string)
    (eventCounts : gmap string N) (log : option Log) : gmap string N :=
  match log with
  | None => eventCounts
  | Some log =>
      let eventCounts := increment "Total" eventCounts in
      match first_topic log with
      | None => increment "Unknown" eventCounts
      | Some topic0 =>
          let eventName :=
            match topic0ToName !! topic0 with
            | Some name => if truthy name then name else "Unknown"
            | None => "Unknown"
            end in
          if decide (eventName = "Unknown") then increment "Unknown" eventCounts
          else <[eventName := (default 0 (eventCounts !! eventName) + 1)%N]> eventCounts
      end
  end.

Definition count_logs (topic0ToName : gmap string string)
    (eventCounts : gmap string N) (logs : list (option Log)) : gmap string N :=
  foldl (count_log topic0ToName) eventCounts logs.

(** The occasional decoded sample: the line it adds to the log window, if
    any. *)
Definition sample (total : N) (block : N) (logs : list (option Log))
  : option LogLine :=
  match logs with
  | Some log0 :: _ =>
      if decide (total `mod` 1000 = 0)%N then
        match decodeLogs log0 with
        | Normal (DecodedLog event) =>
            let eventInfo :=
              match event with
              | Some str => safeStringify str
              | None => "No event data"
              end in
            Some (SampleEvent block eventInfo)
        | Normal NothingDecoded => None
        | Throw message => Some (DecodeWarning message)
        end
      else None
  | _ => None
  end.

Definition log_option (l : option LogLine) (s : Scan) : Scan :=
  match l with
  | Some l => log_line l s
  | None => s
  end.

(** The block guarded by [res.data && res.data.logs && ... length > 0]. *)
Definition process_logs (topic0ToName : gmap string string) (block : N)
    (res : Response) (s : Scan) : Scan :=
  match logs res with
  | Some (log0 :: rest) =>
      let counts := count_logs topic0ToName (eventCounts s) (log0 :: rest) in
      log_option (sample (default 0%N (counts !! "Total")) block (log0 :: rest))
                 (set_eventCounts counts s)
  | Some [] | None => s
  end.

(** The rest of a turn, from the update of [query.fromBlock] on. *)
Definition report (height : N) (startTime : Q) (block : positive)
    (currentTime : Q) (s : Scan) : Scan :=
  let nextBlock := Npos block in
  let total := default 0%N (eventCounts s !! "Total") in
  let seconds := elapsed_seconds startTime currentTime in
  let eventsPerSecond := (inject_Z (Z.of_N total) / seconds)%Q in
  let progress := progress_of block height in
  let redraw :=
    bool_decide (10000 ≤ Z.of_N nextBlock - Z.of_N (lastDistributionUpdate s))%Z in
  let relog :=
    bool_decide (50000 ≤ Z.of_N nextBlock - Z.of_N (lastLogUpdate s))%Z in
  mkScan nextBlock
         (eventCounts s)
         (if relog then nextBlock else lastLogUpdate s)
         (if redraw then nextBlock else lastDistributionUpdate s)
         progress
         (Some (mkStats nextBlock progress total seconds eventsPerSecond))
         (if redraw then eventCounts s else distribution s)
         (if relog
          then logWindow s ++ [BlockProgress nextBlock total eventsPerSecond]
          else logWindow s)
         (status s).

(** One turn of [while (true)]. *)
Definition iteration (topic0ToName : gmap string string) (height : N)
    (startTime : Q) (s : Scan) (t : Tick) : Scan :=
  match received t with
  | recv_throws message =>
      let s := log_line (ErrorLine message) s in
      mkScan (fromBlock s) (eventCounts s) (lastLogUpdate s)
             (lastDistributionUpdate s) (progressBar s) (stats s)
             (distribution s) (logWindow s) Failed
  | recv_null =>
      let s := log_line ReachedTip s in
      mkScan (fromBlock s) (eventCounts s) (lastLogUpdate s)
             (lastDistributionUpdate s) 1%Q (stats s)
             (distribution s) (logWindow s) Complete
  | recv_response res =>
      match nextBlock res with
      | None | Some N0 => log_line MissingNextBlock s
      | Some (Npos block) =>
          report height startTime block (now t)
                 (process_logs topic0ToName (Npos block) res s)
      end
  end.

(** The loop over the turns the stream provides; it leaves at the first
    turn that ends the scan. *)
Fixpoint scan_loop (topic0ToName : gmap string string) (height : N)
    (startTime : Q) (s : Scan) (ticks : list Tick) : Scan :=
  match ticks with
  | [] => s
  | t :: rest =>
      let s' := iteration topic0ToName height startTime s t in
      match status s' with
      | Streaming => scan_loop topic0ToName height startTime s' rest
      | Complete | Failed => s'
      end
  end.

(** The states the loop goes through, one per turn taken. *)
Fixpoint scan_trace (topic0ToName : gmap string string) (height : N)
    (startTime : Q) (s : Scan) (ticks : list Tick) : list Scan :=
  match ticks with
  | [] => []
  | t :: rest =>
      let s' := iteration topic0ToName height startTime s t in
      s' :: match status s' with
            | Streaming => scan_trace topic0ToName height startTime s' rest
            | Complete | Failed => []
            end
  end.

(** The state when the loop is entered: the cursor at 0, the counters of
    [init_tables], the bar at 0 and the distribution drawn once. *)
Definition start (eventSignatures : list string) : Scan :=
  let counts := (init_tables eventSignatures).2 in
  mkScan 0 counts 0 0 0%Q None counts [] Streaming.

(** [createScanner] from the moment the height is known and the stream is
    open, up to the exit of the loop. *)
Definition createScanner (eventSignatures : list string) (height : N)
    (startTime : Q) (ticks : list Tick) : Scan :=
  scan_loop (init_tables eventSignatures).1 height startTime
            (start eventSignatures) ticks.

End WithClient.

(** *** Vocabulary of the statements about the scanner *)

(** The text without its commas. *)
Fixpoint strip_commas (text : string) : string :=
  match text with
  | EmptyString => EmptyString
  | String c rest =>
      if Ascii.eqb c ","%char then strip_commas rest
      else String c (strip_commas rest)
  end.

Fixpoint all_digits (text : string) : bool :=
  match text with
  | EmptyString => true
  | String c rest => is_digit c && all_digits rest
  end.

(** The text has no opening parenthesis. *)
Fixpoint paren_free (text : string) : bool :=
  match text with
  | EmptyString => true
  | String c rest => negb (Ascii.eqb c "("%char) && paren_free rest
  end.

(** How the loop ends over the given turns: at the first sentinel or
    error, or not yet. *)
Fixpoint outcome (ticks : list Tick) : Status :=
  match ticks with
  | [] => Streaming
  | t :: rest =>
      match received t with
      | recv_null => Complete
      | recv_throws _ => Failed
      | recv_response _ => outcome rest
      end
  end.

(** Everything of the state but the lines of the log window. *)
Definition without_log (s : Scan)
  : N * gmap string N * N * N * Q * option Stats * gmap string N * Status :=
  (fromBlock s, eventCounts s, lastLogUpdate s, lastDistributionUpdate s,
   progressBar s, stats s, distribution s, status s).

(** The number of logs of a response that are not [null]. *)
Definition records (res : Response) : N :=
  match logs res with
  | Some logs => N.of_nat (length (filter is_Some logs))
  | None => 0%N
  end.

(** The logs of the batches the loop accepts before it ends. *)
Fixpoint accepted_records (ticks : list Tick) : N :=
  match ticks with
  | [] => 0%N
  | t :: rest =>
      match received t with
      | recv_null | recv_throws _ => 0%N
      | recv_response res =>
          match nextBlock res with
          | Some (Npos _) => (records res + accepted_records rest)%N
          | Some N0 | None => accepted_records rest
          end
      end
  end.

(** The cursor of the last batch the loop accepts before it ends, [from]
    if there is none. *)
Fixpoint last_cursor (from : N) (ticks : list Tick) : N :=
  match ticks with
  | [] => from
  | t :: rest =>
      match received t with
      | recv_null | recv_throws _ => from
      | recv_response res =>
          match nextBlock res with
          | Some (Npos block) => last_cursor (Npos block) rest
          | Some N0 | None => last_cursor from rest
          end
      end
  end.

Definition sum_counters (m : gmap string N) : N :=
  map_fold (λ _ v acc, (v + acc)%N) 0%N m.

(** The sum of every counter of the object except Total: the per-name
    counters and Unknown. *)
Definition others_sum (m : gmap string N) : N :=
  sum_counters (delete "Total" m).

(** Total is the sum of the other counters, and Unknown exists. *)
Definition counted (m : gmap string N) : Prop :=
  m !! "Total" = Some (others_sum m) ∧ is_Some (m !! "Unknown").

(** No display name in the table is the reserved key Total. *)
Definition no_Total (names : gmap string string) : Prop :=
  map_Forall (λ _ name, name ≠ "Total") names.

Definition all_zero (m : gmap string N) : Prop :=
  map_Forall (λ _ v, v = 0%N) m.

(** The log carries no usable first topic: [topics] is absent (or not an
    array), empty, or starts with [null], [undefined] or the empty
    string. *)
Definition unclassifiable (log : Log) : Prop :=
  match topics log with
  | None | Some [] | Some (None :: _) | Some (Some EmptyString :: _) => True
  | Some (Some (String _ _) :: _) => False
  end.

(** The cursor a turn brings, if it brings one the loop accepts. *)
Definition cursor (t : Tick) : option positive :=
  match received t with
  | recv_response res =>
      match nextBlock res with
      | Some (Npos block) => Some block
      | Some N0 | None => None
      end
  | recv_null | recv_throws _ => None
  end.

(** No accepted cursor is behind the one before it, starting from
    [from]. *)
Fixpoint cursors_advance (from : N) (ticks : list Tick) : Prop :=
  match ticks with
  | [] => True
  | t :: rest =>
      match cursor t with
      | Some block => (from ≤ Npos block)%N ∧ cursors_advance (Npos block) rest
      | None => cursors_advance from rest
      end
  end.

Fixpoint nondecreasing (prev : Q) (l : list Q) : Prop :=
  match l with
  | [] => True
  | x :: rest => (prev <= x)%Q ∧ nondecreasing x rest
  end.

(** The fraction that corresponds to a cursor: 0 before the first batch. *)
Definition cursor_progress (height : N) (from : N) : Q :=
  match from with
  | N0 => 0%Q
  | Npos block => progress_of block height
  end.

(** A stand-in client for the examples: the hash only has to give a
    non-empty string, and the decoder is never reached in these runs. *)
Definition hash_stub (text : string) : string := "0x" +:+ text.

Definition hex_stub (text : string) : string := text.

Definition decoder_stub (log : Log) : Completion Decoded := Normal NothingDecoded.

(** A turn that receives an empty batch at cursor [block]. *)
Definition batch_at (block : N) (currentTime : Q) : Tick :=
  mkTick (recv_response (mkResponse (Some block) None)) currentTime.

End Scanner.

(** ** Properties of the scanner *)

Module ScannerFacts.
Import Scanner.

(** *** Sums of counters *)

Lemma sum_counters_empty : sum_counters ∅ = 0%N.
Proof. apply map_fold_empty. Qed.

Lemma sum_counters_insert_fresh k v (m : gmap string N) :
  m !! k = None → sum_counters (<[k:=v]> m) = (v + sum_counters m)%N.
Proof.
  intros Hk. unfold sum_counters.
  apply (map_fold_insert_L (λ _ v acc, (v + acc)%N)); [intros; lia | done].
Qed.

Lemma sum_counters_delete k v (m : gmap string N) :
  m !! k = Some v → sum_counters m = (v + sum_counters (delete k m))%N.
Proof.
  intros Hk. unfold sum_counters.
  apply (map_fold_delete_L (λ _ v acc, (v + acc)%N)); [intros; lia | done].
Qed.

Lemma sum_counters_insert k v (m : gmap string N) :
  (sum_counters (<[k:=v]> m) + default 0 (m !! k) = v + sum_counters m)%N.
Proof.
  destruct (m !! k) as [old|] eqn:Hk; simpl.
  - rewrite (sum_counters_delete k old m Hk), <- (insert_delete_eq m k v).
    rewrite sum_counters_insert_fresh by apply lookup_delete_eq. lia.
  - rewrite sum_counters_insert_fresh by done. lia.
Qed.

Lemma sum_counters_zero (m : gmap string N) :
  map_Forall (λ _ v, v = 0%N) m → sum_counters m = 0%N.
Proof.
  induction m as [|k v m Hk IH] using map_ind; intros Hall.
  - apply sum_counters_empty.
  - rewrite sum_counters_insert_fresh by done.
    apply map_Forall_insert in Hall as [-> Hm]; [|done].
    by rewrite IH.
Qed.

Lemma increment_insert k n (m : gmap string N) :
  m !! k = Some n → increment k m = <[k := N.succ n]> m.
Proof.
  intros Hk. apply map_eq; intros j. unfold increment.
  destruct (decide (k = j)) as [<-|Hne].
  - by rewrite lookup_alter_eq, lookup_insert_eq, Hk.
  - by rewrite lookup_alter_ne, lookup_insert_ne.
Qed.

Lemma others_sum_increment_Total (m : gmap string N) :
  others_sum (increment "Total" m) = others_sum m.
Proof. unfold others_sum, increment. by rewrite delete_alter_eq. Qed.

Lemma others_sum_insert k v (m : gmap string N) :
  k ≠ "Total" →
  (others_sum (<[k:=v]> m) + default 0 (m !! k) = v + others_sum m)%N.
Proof.
  intros Hk. unfold others_sum. rewrite delete_insert_ne by done.
  rewrite <- (sum_counters_insert k v (delete "Total" m)).
  by rewrite lookup_delete_ne.
Qed.

(** *** The counting invariant *)

Lemma bump_counted m k :
  counted m → k ≠ "Total" →
  counted (<[k := (default 0 (increment "Total" m !! k) + 1)%N]>
             (increment "Total" m)).
Proof.
  intros [HT HU] Hk. split.
  - rewrite lookup_insert_ne by done.
    unfold increment at 1. rewrite lookup_alter_eq, HT. simpl. f_equal.
    pose proof (others_sum_insert k
      (default 0 (increment "Total" m !! k) + 1)%N (increment "Total" m) Hk) as E.
    rewrite others_sum_increment_Total in E. lia.
  - destruct (decide (k = "Unknown")) as [->|Hne].
    + rewrite lookup_insert_eq. by eexists.
    + rewrite lookup_insert_ne by done. unfold increment.
      by rewrite lookup_alter_ne.
Qed.

Lemma increment_as_bump k (m : gmap string N) :
  is_Some (m !! k) →
  increment k m = <[k := (default 0 (m !! k) + 1)%N]> m.
Proof.
  intros [n Hn]. rewrite (increment_insert k n m Hn), Hn. simpl.
  by rewrite N.add_1_r.
Qed.

(** Every counted log bumps Total and exactly one other key. *)
Lemma count_log_bumps names m log :
  is_Some (m !! "Unknown") → no_Total names →
  ∃ k, k ≠ "Total" ∧
       count_log names m (Some log) =
         <[k := (default 0 (increment "Total" m !! k) + 1)%N]>
           (increment "Total" m).
Proof.
  intros HU Hnames.
  assert (HU' : is_Some (increment "Total" m !! "Unknown"))
    by (unfold increment; by rewrite lookup_alter_ne).
  unfold count_log. destruct (first_topic log) as [topic0|].
  - case_decide as Hname.
    + exists "Unknown". split; [done|]. by apply increment_as_bump.
    + destruct (names !! topic0) as [name|] eqn:Hl; [|done].
      destruct (truthy name); [|done].
      exists name. split; [|done]. by apply (Hnames topic0).
  - exists "Unknown". split; [done|]. by apply increment_as_bump.
Qed.

(** Counting a log never removes a counter. *)
Lemma count_log_keeps_keys names (m : gmap string N) log k :
  is_Some (m !! k) → is_Some (count_log names m log !! k).
Proof.
  intros Hk. destruct log as [log|]; [|done]. unfold count_log, increment.
  destruct (first_topic log) as [topic0|].
  - case_decide.
    + by rewrite !lookup_alter_is_Some.
    + rewrite lookup_insert_is_Some'. right. by rewrite lookup_alter_is_Some.
  - by rewrite !lookup_alter_is_Some.
Qed.

Lemma count_log_counted names m log :
  no_Total names → counted m → counted (count_log names m log).
Proof.
  intros Hnames Hm. destruct log as [log|]; [|done].
  destruct (count_log_bumps names m log (proj2 Hm) Hnames) as (k & Hk & ->).
  by apply bump_counted.
Qed.

Lemma count_logs_counted names m logs :
  no_Total names → counted m → counted (count_logs names m logs).
Proof.
  intros Hnames. revert m. unfold count_logs.
  induction logs as [|log logs IH]; intros m Hm; [done|].
  simpl. by apply IH, count_log_counted.
Qed.

Lemma all_zero_counted m :
  all_zero m → m !! "Total" = Some 0%N → m !! "Unknown" = Some 0%N → counted m.
Proof.
  intros Hz HT HU. split; [|by eexists].
  rewrite HT. f_equal. symmetry. apply sum_counters_zero.
  intros k v Hkv. apply (Hz k v).
  destruct (decide (k = "Total")) as [->|Hne].
  - by rewrite lookup_delete_eq in Hkv.
  - by rewrite lookup_delete_ne in Hkv.
Qed.

(** *** Classification of one log *)

Lemma unclassifiable_first_topic log :
  unclassifiable log ↔ first_topic log = None.
Proof.
  unfold unclassifiable, first_topic.
  destruct (topics log) as [[|[[|c t]|] rest]|]; simpl; naive_solver.
Qed.


(** C8: a log whose topics are absent, empty or start with a falsy
    element adds exactly 1 to Unknown and 1 to Total and changes no other
    counter. *)
Theorem unclassifiable_log_counts_as_Unknown names counts log total unknown :
  unclassifiable log →
  counts !! "Total" = Some total →
  counts !! "Unknown" = Some unknown →
  let counts' := count_log names counts (Some log) in
  counts' !! "Total" = Some (total + 1)%N ∧
  counts' !! "Unknown" = Some (unknown + 1)%N ∧
  ∀ k, k ≠ "Total" → k ≠ "Unknown" → counts' !! k = counts !! k.
Proof.
  intros Hlog HT HU. apply unclassifiable_first_topic in Hlog.
  unfold count_log. rewrite Hlog. unfold increment. split; [|split].
  - rewrite lookup_alter_ne, lookup_alter_eq, HT by done. simpl.
    by rewrite N.add_1_r.
  - rewrite lookup_alter_eq, lookup_alter_ne, HU by done. simpl.
    by rewrite N.add_1_r.
  - intros k HkT HkU. by rewrite !lookup_alter_ne.
Qed.

(** A log whose first topic maps to the display name Total adds 2 to
    Total and nothing to any other counter. *)
Lemma count_log_named_Total names counts topic0 rest total :
  truthy topic0 = true →
  names !! topic0 = Some "Total" →
  counts !! "Total" = Some total →
  count_log names counts (Some (mkLog (Some (Some topic0 :: rest)))) =
    <["Total" := (total + 2)%N]> counts.
Proof.
  intros Ht Hn HT. unfold count_log, first_topic. simpl. rewrite Ht, Hn. simpl.
  rewrite (increment_insert "Total" total counts HT), lookup_insert_eq. simpl.
  rewrite insert_insert_eq. f_equal. lia.
Qed.

Section WithClient.

Variable keccak256 : string → string.
Variable toHex : string → string.
Variable decodeLogs : Log → Completion Decoded.

(** *** The tables built from the signatures *)

Lemma init_signature_zero acc sig :
  all_zero acc.2 ∧ acc.2 !! "Total" = Some 0%N ∧ acc.2 !! "Unknown" = Some 0%N →
  let acc' := init_signature keccak256 toHex acc sig in
  all_zero acc'.2 ∧ acc'.2 !! "Total" = Some 0%N ∧ acc'.2 !! "Unknown" = Some 0%N.
Proof.
  intros (Hz & HT & HU). simpl. split; [|split].
  - by apply map_Forall_insert_2.
  - destruct (decide (split_head sig = "Total")) as [->|Hne].
    + by rewrite lookup_insert_eq.
    + by rewrite lookup_insert_ne.
  - destruct (decide (split_head sig = "Unknown")) as [->|Hne].
    + by rewrite lookup_insert_eq.
    + by rewrite lookup_insert_ne.
Qed.

Lemma init_tables_zero sigs :
  let counts := (init_tables keccak256 toHex sigs).2 in
  all_zero counts ∧ counts !! "Total" = Some 0%N ∧ counts !! "Unknown" = Some 0%N.
Proof.
  unfold init_tables.
  assert (H0 : all_zero empty_tables.2
     ∧ empty_tables.2 !! "Total" = Some 0%N
     ∧ empty_tables.2 !! "Unknown" = Some 0%N).
  { unfold empty_tables; simpl. split; [|split; by vm_compute].
    intros k v. rewrite lookup_insert_Some, lookup_singleton_Some.
    by intros [[_ <-]|[_ [_ <-]]]. }
  revert H0. generalize empty_tables.
  induction sigs as [|sig sigs IH]; intros acc Hacc; [done|].
  simpl. apply IH. by apply init_signature_zero.
Qed.

Lemma init_tables_names sigs :
  Forall (λ sig, split_head sig ≠ "Total") sigs →
  no_Total (init_tables keccak256 toHex sigs).1.
Proof.
  unfold init_tables.
  assert (H0 : no_Total empty_tables.1) by apply map_Forall_empty.
  revert H0. generalize empty_tables.
  induction sigs as [|sig sigs IH]; intros acc Hacc Hall; [done|].
  apply Forall_cons in Hall as [Hsig Hall]. simpl. apply IH; [|done].
  simpl. by apply map_Forall_insert_2.
Qed.

(** *** Frames: what each part of a turn leaves alone *)

Lemma eventCounts_log_option l s :
  eventCounts (log_option l s) = eventCounts s.
Proof. by destruct l. Qed.

Lemma process_logs_eventCounts names block res s :
  eventCounts (process_logs decodeLogs names block res s) =
    match logs res with
    | Some logs => count_logs names (eventCounts s) logs
    | None => eventCounts s
    end.
Proof.
  unfold process_logs. destruct (logs res) as [[|log0 rest]|]; try done.
  by rewrite eventCounts_log_option.
Qed.

Lemma process_logs_frame names block res s :
  let s' := process_logs decodeLogs names block res s in
  fromBlock s' = fromBlock s ∧ progressBar s' = progressBar s ∧
  stats s' = stats s ∧ status s' = status s.
Proof.
  unfold process_logs. destruct (logs res) as [[|log0 rest]|]; try done.
  by destruct (sample _ _ _ _).
Qed.

Lemma iteration_counted names height startTime s t :
  no_Total names → counted (eventCounts s) →
  counted (eventCounts (iteration decodeLogs names height startTime s t)).
Proof.
  intros Hnames Hs. unfold iteration.
  destruct (received t) as [|res|m]; try done.
  destruct (nextBlock res) as [[|block]|]; try done.
  simpl. rewrite process_logs_eventCounts.
  destruct (logs res); [by apply count_logs_counted | done].
Qed.

Lemma scan_loop_counted names height startTime ticks s :
  no_Total names → counted (eventCounts s) →
  counted (eventCounts (scan_loop decodeLogs names height startTime s ticks)).
Proof.
  intros Hnames. revert s.
  induction ticks as [|t ticks IH]; intros s Hs; [done|].
  simpl. pose proof (iteration_counted names height startTime s t Hnames Hs).
  destruct (status _); auto.
Qed.


(** C3: with the signature Total(uint256) configured, a batch of two
    logs, one of that event and one without topics, leaves Total at 3
    while the other counters sum to 1. *)
Theorem event_named_Total_is_counted_twice currentTime :
  let topic0 := keccak256 (toHex "Total(uint256)") in
  truthy topic0 = true →
  let batch :=
    mkResponse (Some 1%N)
               (Some [Some (mkLog (Some [Some topic0])); Some (mkLog None)]) in
  let counts :=
    eventCounts (createScanner keccak256 toHex decodeLogs ["Total(uint256)"]
                   1 0%Q [mkTick (recv_response batch) currentTime]) in
  counts = {[ "Total" := 3%N; "Unknown" := 1%N ]} ∧ others_sum counts = 1%N.
Proof.
  intros topic0 Ht batch counts.
  assert (Hc : counts = {[ "Total" := 3%N; "Unknown" := 1%N ]}).
  { subst counts. unfold createScanner. cbn [scan_loop].
    set (s1 := iteration _ _ _ _ _ _).
    assert (E : eventCounts s1 = {[ "Total" := 3%N; "Unknown" := 1%N ]}).
    { subst s1. unfold iteration. cbn [received batch nextBlock].
      cbn [report eventCounts]. rewrite process_logs_eventCounts.
      cbn [logs batch count_logs foldl start eventCounts].
      unfold init_tables. cbn [foldl init_signature fst snd].
      change (split_head "Total(uint256)") with "Total".
      fold topic0.
      rewrite (count_log_named_Total _ _ topic0 [] 0%N Ht);
        [ by vm_compute | apply lookup_insert_eq | by vm_compute ]. }
    by destruct (status s1). }
  split; [done|]. rewrite Hc. by vm_compute.
Qed.

(** *** The turns of the loop *)

(** C4: on the end-of-stream sentinel the bar is set to exactly 1 and the
    loop is left in its Complete state, with cursor and counters as they
    were; a scan whose first turn receives the sentinel, whatever the
    height (0 included), completes with the bar at 1 and every counter
    at 0. *)
Theorem sentinel_completes_scan :
  (∀ names height startTime s currentTime rest,
     let t := mkTick recv_null currentTime in
     let s' := iteration decodeLogs names height startTime s t in
     progressBar s' = 1%Q ∧ status s' = Complete ∧
     eventCounts s' = eventCounts s ∧ fromBlock s' = fromBlock s ∧
     scan_loop decodeLogs names height startTime s (t :: rest) = s')
  ∧ (∀ sigs height startTime currentTime rest,
     let s := createScanner keccak256 toHex decodeLogs sigs height startTime
                (mkTick recv_null currentTime :: rest) in
     status s = Complete ∧ progressBar s = 1%Q ∧ fromBlock s = 0%N ∧
     all_zero (eventCounts s) ∧
     eventCounts s !! "Total" = Some 0%N ∧
     eventCounts s !! "Unknown" = Some 0%N).
Proof.
  split.
  - intros; repeat split; reflexivity.
  - intros sigs height startTime currentTime rest s.
    destruct (init_tables_zero sigs) as (Hz & HT & HU).
    subst s. unfold createScanner. cbn. by repeat split.
Qed.

(** C6: a batch without [nextBlock] is discarded: the warning is logged,
    no counter and no cursor changes, the status is kept, and the loop
    goes on with the next turn. *)
Theorem missing_cursor_discards_batch names height startTime s logs
    currentTime rest :
  let t := mkTick (recv_response (mkResponse None logs)) currentTime in
  let s' := iteration decodeLogs names height startTime s t in
  logWindow s' = (logWindow s ++ [MissingNextBlock])%list ∧
  eventCounts s' = eventCounts s ∧
  fromBlock s' = fromBlock s ∧
  progressBar s' = progressBar s ∧
  status s' = status s ∧
  scan_loop decodeLogs names height startTime s (t :: rest) =
    match status s with
    | Streaming => scan_loop decodeLogs names height startTime s' rest
    | Complete | Failed => s'
    end.
Proof. intros; repeat split; reflexivity. Qed.

(** C10: a batch whose [nextBlock] is 0 is handled exactly as one
    without [nextBlock]: same warning, nothing counted, cursor kept. *)
Theorem zero_cursor_is_missing_cursor names height startTime s logs
    currentTime :
  let zero := mkTick (recv_response (mkResponse (Some 0%N) logs)) currentTime in
  let missing := mkTick (recv_response (mkResponse None logs)) currentTime in
  let s' := iteration decodeLogs names height startTime s zero in
  s' = iteration decodeLogs names height startTime s missing ∧
  logWindow s' = (logWindow s ++ [MissingNextBlock])%list ∧
  eventCounts s' = eventCounts s ∧
  fromBlock s' = fromBlock s ∧
  status s' = status s.
Proof. intros; repeat split; reflexivity. Qed.

Lemma elapsed_seconds_floor startTime currentTime :
  (1 # 10 <= elapsed_seconds startTime currentTime)%Q.
Proof. apply Q.le_max_r. Qed.

Lemma elapsed_seconds_positive startTime currentTime :
  (0 < elapsed_seconds startTime currentTime)%Q.
Proof.
  apply Qlt_le_trans with (1 # 10)%Q; [reflexivity|].
  apply elapsed_seconds_floor.
Qed.

(** C9: every batch that is counted recomputes the throughput as the
    current Total over the elapsed seconds, the latter being the larger
    of the time since the start and 0.1, hence never zero; a batch that
    is discarded computes nothing. *)
Theorem throughput_divisor_is_floored names height startTime s res
    currentTime :
  let s' := iteration decodeLogs names height startTime s
              (mkTick (recv_response res) currentTime) in
  match nextBlock res with
  | Some (Npos block) =>
      ∃ st, stats s' = Some st ∧
        seconds st = Qmax ((currentTime - startTime) / 1000) (1 # 10) ∧
        (1 # 10 <= seconds st)%Q ∧
        ¬ (seconds st == 0)%Q ∧
        totalEvents st = default 0%N (eventCounts s' !! "Total") ∧
        eventsPerSecond st =
          (inject_Z (Z.of_N (totalEvents st)) / seconds st)%Q
  | Some N0 | None => stats s' = stats s
  end.
Proof.
  intros s'. destruct (nextBlock res) as [[|block]|] eqn:Hnb; subst s';
    unfold iteration; cbn [received now]; rewrite Hnb; [done| |done].
  eexists. split; [reflexivity|]. cbn [seconds totalEvents eventsPerSecond].
  repeat split.
  - apply elapsed_seconds_floor.
  - intros H0. pose proof (elapsed_seconds_positive startTime currentTime) as Hp.
    rewrite H0 in Hp. by apply Qlt_irrefl in Hp.
Qed.

(** *** Progress *)

Lemma progress_of_le_1 block height : (progress_of block height <= 1)%Q.
Proof.
  unfold progress_of. destruct height; [apply Qle_refl | apply Q.le_min_r].
Qed.

Lemma progress_of_nonneg block height : (0 <= progress_of block height)%Q.
Proof.
  unfold progress_of. destruct height; [done|].
  apply Q.min_glb; done.
Qed.

Lemma progress_of_mono b1 b2 height :
  (b1 ≤ b2)%positive → (progress_of b1 height <= progress_of b2 height)%Q.
Proof.
  intros Hle. unfold progress_of. destruct height as [|h]; [apply Qle_refl|].
  apply Q.min_le_compat_r. unfold Qle; simpl. nia.
Qed.

Lemma cursor_progress_mono height from block :
  (from ≤ Npos block)%N →
  (cursor_progress height from <= progress_of block height)%Q.
Proof.
  destruct from as [|b]; simpl; intros Hle.
  - apply progress_of_nonneg.
  - apply progress_of_mono. lia.
Qed.

Lemma cursor_progress_le_1 height from : (cursor_progress height from <= 1)%Q.
Proof. destruct from; [done | apply progress_of_le_1]. Qed.

Lemma iteration_accepts names height startTime s t block :
  cursor t = Some block →
  let s' := iteration decodeLogs names height startTime s t in
  progressBar s' = progress_of block height ∧ fromBlock s' = Npos block ∧
  status s' = status s.
Proof.
  unfold cursor, iteration. destruct (received t) as [|res|]; try done.
  destruct (nextBlock res) as [[|b]|]; try done. intros [= ->]. simpl.
  repeat split. apply process_logs_frame.
Qed.

Lemma iteration_without_cursor names height startTime s t :
  cursor t = None →
  let s' := iteration decodeLogs names height startTime s t in
  fromBlock s' = fromBlock s ∧
  (progressBar s' = progressBar s ∨
   progressBar s' = 1%Q ∧ status s' = Complete).
Proof.
  unfold cursor, iteration. destruct (received t) as [|res|]; simpl; auto.
  destruct (nextBlock res) as [[|b]|]; simpl; auto. done.
Qed.

Lemma iteration_clamped names height startTime s t :
  (progressBar s <= 1)%Q →
  (progressBar (iteration decodeLogs names height startTime s t) <= 1)%Q.
Proof.
  intros Hs. destruct (cursor t) as [block|] eqn:Hc.
  - destruct (iteration_accepts names height startTime s t block Hc) as (-> & _).
    apply progress_of_le_1.
  - destruct (iteration_without_cursor names height startTime s t Hc)
      as (_ & [-> | [-> _]]); done.
Qed.

Lemma scan_trace_clamped names height startTime ticks s :
  (progressBar s <= 1)%Q →
  Forall (λ s', (progressBar s' <= 1)%Q)
         (scan_trace decodeLogs names height startTime s ticks).
Proof.
  revert s. induction ticks as [|t ticks IH]; intros s Hs; simpl; [done|].
  pose proof (iteration_clamped names height startTime s t Hs) as Hs'.
  constructor; [done|]. destruct (status _); auto.
Qed.

Lemma scan_trace_monotone names height startTime ticks s :
  (progressBar s <= cursor_progress height (fromBlock s))%Q →
  cursors_advance (fromBlock s) ticks →
  nondecreasing (progressBar s)
    (progressBar <$> scan_trace decodeLogs names height startTime s ticks).
Proof.
  revert s. induction ticks as [|t ticks IH]; intros s Hs Hadv; [done|].
  cbn [scan_trace fmap list_fmap nondecreasing]. cbn [cursors_advance] in Hadv.
  destruct (cursor t) as [block|] eqn:Hc.
  - destruct Hadv as [Hle Hadv].
    destruct (iteration_accepts names height startTime s t block Hc)
      as (Hbar & Hfrom & Hst).
    split.
    + rewrite Hbar. eapply Qle_trans; [exact Hs|].
      by apply cursor_progress_mono.
    + destruct (status _); [|done..].
      apply IH; rewrite Hfrom; [|done]. rewrite Hbar. apply Qle_refl.
  - destruct (iteration_without_cursor names height startTime s t Hc)
      as (Hfrom & [Hbar | [Hbar Hst]]).
    + split; [rewrite Hbar; apply Qle_refl|].
      destruct (status _); [|done..].
      apply IH; rewrite Hfrom; [by rewrite Hbar | done].
    + split.
      * rewrite Hbar. eapply Qle_trans; [exact Hs|].
        apply cursor_progress_le_1.
      * by rewrite Hst.
Qed.

Lemma default_last_cons {A} (d x : A) (l : list A) :
  default d (last (x :: l)) = default x (last l).
Proof.
  revert d x. induction l as [|y l IH]; intros d x; [done|].
  change (last (x :: y :: l)) with (last (y :: l)).
  by rewrite (IH d y), (IH x y).
Qed.

Lemma scan_loop_last names height startTime ticks s :
  scan_loop decodeLogs names height startTime s ticks =
    default s (last (scan_trace decodeLogs names height startTime s ticks)).
Proof.
  revert s. induction ticks as [|t ticks IH]; intros s; [done|].
  cbn [scan_loop scan_trace].
  set (s' := iteration _ _ _ _ _ _).
  destruct (status s'); [|done..].
  by rewrite IH, default_last_cons.
Qed.

(** C5 (amended): the fraction shown after every turn is at most 1, and
    the fractions shown over a scan never decrease when no accepted
    [nextBlock] is behind the cursor it replaces. *)
Theorem progress_clamped_and_monotone sigs height startTime ticks :
  let s0 := start keccak256 toHex sigs in
  let trace := scan_trace decodeLogs (init_tables keccak256 toHex sigs).1
                 height startTime s0 ticks in
  Forall (λ s, (progressBar s <= 1)%Q) trace ∧
  (cursors_advance 0 ticks →
   nondecreasing (progressBar s0) (progressBar <$> trace)).
Proof.
  intros s0 trace. split.
  - by apply scan_trace_clamped.
  - intros Hadv. by apply scan_trace_monotone.
Qed.

End WithClient.

(** *** Examples over the stand-in client *)

Lemma unclassifiable_log_counts_as_Unknown_witness :
  let counts' := count_log ∅ empty_tables.2 (Some (mkLog (Some []))) in
  counts' !! "Total" = Some 1%N ∧
  counts' !! "Unknown" = Some 1%N ∧
  ∀ k, k ≠ "Total" → k ≠ "Unknown" → counts' !! k = empty_tables.2 !! k.
Proof.
  apply (unclassifiable_log_counts_as_Unknown ∅ empty_tables.2
           (mkLog (Some [])) 0%N 0%N).
  - simpl. exact I.
  - reflexivity.
  - reflexivity.
Defined.

Lemma event_named_Total_is_counted_twice_witness :
  let topic0 := hash_stub (hex_stub "Total(uint256)") in
  let batch :=
    mkResponse (Some 1%N)
               (Some [Some (mkLog (Some [Some topic0])); Some (mkLog None)]) in
  let counts :=
    eventCounts (createScanner hash_stub hex_stub decoder_stub
                   ["Total(uint256)"] 1 0%Q [mkTick (recv_response batch) 0%Q]) in
  counts = {[ "Total" := 3%N; "Unknown" := 1%N ]} ∧ others_sum counts = 1%N.
Proof.
  apply (event_named_Total_is_counted_twice hash_stub hex_stub decoder_stub 0%Q).
  reflexivity.
Defined.

(** C5, as stated, fails: with the height at 200, a batch at cursor 100
    followed by one at cursor 50 shows one half and then one quarter. *)
Lemma progress_falls_when_cursor_goes_back :
  let shown :=
    progressBar <$>
      scan_trace decoder_stub (init_tables hash_stub hex_stub []).1 200 0%Q
        (start hash_stub hex_stub []) [batch_at 100 10%Q; batch_at 50 20%Q] in
  shown = [(100 # 200)%Q; (50 # 200)%Q] ∧ ¬ nondecreasing 0%Q shown.
Proof.
  split; [by vm_compute|].
  vm_compute. intros (_ & H & _). by apply H.
Qed.

Lemma progress_clamped_and_monotone_witness :
  nondecreasing 0%Q
    (progressBar <$>
       scan_trace decoder_stub (init_tables hash_stub hex_stub []).1 200 0%Q
         (start hash_stub hex_stub []) [batch_at 100 10%Q; batch_at 150 20%Q]).
Proof.
  apply (proj2 (progress_clamped_and_monotone hash_stub hex_stub decoder_stub
                  [] 200 0%Q [batch_at 100 10%Q; batch_at 150 20%Q])).
  simpl. lia.
Defined.

(** *** Further properties: the text helpers *)



Lemma split_head_paren_free text : paren_free (split_head text) = true.
Proof.
  induction text as [|c text IH]; simpl; [done|].
  destruct (Ascii.eqb c "(") eqn:Hc; simpl; [done|]. by rewrite Hc.
Qed.

(** X7: the display name of a signature is the text before its first
    opening parenthesis, and the whole text when it has none. *)
Theorem split_head_before_paren name rest :
  paren_free name = true →
  split_head (name +:+ String "("%char rest) = name ∧ split_head name = name.
Proof.
  induction name as [|c name IH]; simpl; [done|].
  intros [Hc Hn]%andb_prop. apply negb_true_iff in Hc. rewrite Hc.
  destruct (IH Hn) as [-> ->]. done.
Qed.

Lemma split_head_before_paren_witness :
  split_head ("Transfer" +:+ String "("%char "address,address,uint256)")
    = "Transfer"
  ∧ split_head "Transfer" = "Transfer".
Proof.
  apply (split_head_before_paren "Transfer" "address,address,uint256)").
  reflexivity.
Defined.


Lemma strip_insert_commas prev text :
  strip_commas (insert_commas prev text) = strip_commas text.
Proof.
  revert prev. induction text as [|c text IH]; intros prev; [done|].
  cbn [insert_commas].
  destruct (prev && groups_ahead (String c text)); cbn [strip_commas];
    rewrite ?IH; reflexivity.
Qed.

(** X9: [formatNumber] only inserts commas: taking the commas out of its
    result gives the text it was given (without its own commas, if it had
    any). *)
Theorem formatNumber_only_inserts_commas text :
  strip_commas (formatNumber (Some text)) = strip_commas text.
Proof. apply strip_insert_commas. Qed.

Lemma digit_run_all_digits text :
  all_digits text = true → digit_run text = String.length text.
Proof.
  induction text as [|c text IH]; simpl; [done|].
  intros [-> Ht]%andb_prop. by rewrite IH.
Qed.

Lemma is_digit_word c : is_digit c = true → is_word c = true.
Proof. unfold is_word. by intros ->. Qed.

Lemma div3_succ n :
  (S n / 3 = n / 3 + (if (S n `mod` 3 =? 0) then 1 else 0))%nat.
Proof.
  pose proof (Nat.div_mod_eq n 3) as Hn.
  pose proof (Nat.div_mod_eq (S n) 3) as HS.
  pose proof (Nat.mod_upper_bound n 3) as Bn.
  pose proof (Nat.mod_upper_bound (S n) 3) as BS.
  destruct (Nat.eqb_spec (S n `mod` 3) 0); lia.
Qed.

Lemma insert_commas_digits_length text :
  all_digits text = true →
  String.length (insert_commas true text) =
    (String.length text + String.length text / 3)%nat.
Proof.
  induction text as [|c text IH]; [done|].
  intros Hall. pose proof (digit_run_all_digits _ Hall) as Hrun.
  cbn [all_digits] in Hall. apply andb_prop in Hall as [Hc Ht].
  cbn [insert_commas]. rewrite (is_digit_word c Hc).
  unfold groups_ahead. rewrite Hrun. cbn [String.length andb Nat.ltb Nat.leb].
  rewrite (div3_succ (String.length text)).
  destruct (S (String.length text) `mod` 3 =? 0)%nat; cbn [String.length];
    rewrite (IH Ht); lia.
Qed.

(** X10: on the decimal digits of a number, [formatNumber] inserts one
    comma for every full group of three digits after the first digit: a
    text of n digits becomes one of n + (n - 1) / 3 characters. *)
Theorem formatNumber_digits_length text :
  all_digits text = true →
  String.length (formatNumber (Some text)) =
    (String.length text + (String.length text - 1) / 3)%nat.
Proof.
  destruct text as [|c text]; [done|].
  cbn [all_digits]. intros [Hc Ht]%andb_prop.
  cbn [formatNumber insert_commas andb String.length].
  rewrite (is_digit_word c Hc), (insert_commas_digits_length text Ht).
  replace (S (String.length text) - 1)%nat with (String.length text) by lia.
  lia.
Qed.

Lemma formatNumber_digits_length_witness :
  String.length (formatNumber (Some "21500000")) = 10.
Proof.
  apply (formatNumber_digits_length "21500000"). reflexivity.
Defined.

(** X11: the fraction of an accepted batch is positive, and it is 1
    exactly when the cursor has reached the height (a height of 0
    included). *)
Theorem progress_full_iff_height_reached block height :
  (0 < progress_of block height)%Q ∧
  ((progress_of block height == 1)%Q ↔ (height ≤ Npos block)%N).
Proof.
  unfold progress_of. destruct height as [|h].
  - split; [reflexivity|]. split; [lia | reflexivity].
  - split.
    + apply Q.min_glb_lt; reflexivity.
    + destruct (Qlt_le_dec (Zpos block # h) 1) as [Hlt|Hle].
      * rewrite Q.min_l by by apply Qlt_le_weak.
        split.
        -- intros E. rewrite E in Hlt. by apply Qlt_irrefl in Hlt.
        -- intros Hh. exfalso. revert Hlt. unfold Qlt; simpl. lia.
      * rewrite Q.min_r by done. split; [|reflexivity].
        intros _. revert Hle. unfold Qle; simpl. lia.
Qed.

(** *** Further properties: classification *)





(** *** Further properties: the tables and the loop *)

Section Loop.

Variable keccak256 : string → string.
Variable toHex : string → string.
Variable decodeLogs : Log → Completion Decoded.




Lemma iteration_status names height startTime s t :
  status (iteration decodeLogs names height startTime s t) =
    match received t with
    | recv_null => Complete
    | recv_throws _ => Failed
    | recv_response _ => status s
    end.
Proof.
  unfold iteration. destruct (received t) as [|res|m]; try done.
  destruct (nextBlock res) as [[|block]|]; try done.
  simpl. apply process_logs_frame.
Qed.

(** X15: the loop ends only at the end-of-stream sentinel or at an error
    of the stream: over any turns it is Complete if the first turn that is
    not a response is the sentinel, Failed if it is an error, and still
    Streaming if every turn is a response, however malformed. *)
Theorem loop_ends_at_sentinel_or_error names height startTime s ticks :
  status s = Streaming →
  status (scan_loop decodeLogs names height startTime s ticks) = outcome ticks.
Proof.
  revert s. induction ticks as [|t ticks IH]; intros s Hs; [done|].
  cbn [scan_loop outcome].
  pose proof (iteration_status names height startTime s t) as Hst.
  destruct (received t) as [|res|m]; rewrite Hst; try done.
  rewrite Hs. apply IH. by rewrite Hst.
Qed.


Lemma count_log_Total names m log total :
  no_Total names → is_Some (m !! "Unknown") → m !! "Total" = Some total →
  count_log names m (Some log) !! "Total" = Some (total + 1)%N.
Proof.
  intros Hnames HU HT.
  destruct (count_log_bumps names m log HU Hnames) as (k & Hk & ->).
  rewrite lookup_insert_ne by done. unfold increment.
  rewrite lookup_alter_eq, HT. simpl. by rewrite N.add_1_r.
Qed.

Lemma count_logs_Total names logs m total :
  no_Total names → is_Some (m !! "Unknown") → m !! "Total" = Some total →
  let m' := count_logs names m logs in
  m' !! "Total" = Some (total + N.of_nat (length (filter is_Some logs)))%N ∧
  is_Some (m' !! "Unknown").
Proof.
  intros Hnames. revert m total. unfold count_logs.
  induction logs as [|log logs IH]; intros m total HU HT.
  - simpl. by rewrite N.add_0_r.
  - cbn [foldl]. rewrite filter_cons. destruct log as [log|].
    + rewrite decide_True by done.
      destruct (IH (count_log names m (Some log)) (total + 1)%N) as [E HU'].
      * by apply count_log_keeps_keys.
      * by apply count_log_Total.
      * split; [|done]. rewrite E. f_equal. cbn [length]. lia.
    + rewrite decide_False by by intros [? ?].
      by apply IH.
Qed.

Lemma iteration_Total names height startTime s t total :
  no_Total names → is_Some (eventCounts s !! "Unknown") →
  eventCounts s !! "Total" = Some total →
  let s' := iteration decodeLogs names height startTime s t in
  eventCounts s' !! "Total" = Some (total + accepted_records [t])%N ∧
  is_Some (eventCounts s' !! "Unknown").
Proof.
  intros Hnames HU HT. unfold iteration. cbn [accepted_records].
  destruct (received t) as [|res|m]; simpl; rewrite ?N.add_0_r; try done.
  destruct (nextBlock res) as [[|block]|]; simpl; rewrite ?N.add_0_r; try done.
  rewrite process_logs_eventCounts. unfold records.
  destruct (logs res) as [logs|]; [|by rewrite N.add_0_r].
  by apply count_logs_Total.
Qed.

Lemma scan_loop_Total names height startTime ticks s total :
  no_Total names → status s = Streaming →
  is_Some (eventCounts s !! "Unknown") →
  eventCounts s !! "Total" = Some total →
  eventCounts (scan_loop decodeLogs names height startTime s ticks) !! "Total"
    = Some (total + accepted_records ticks)%N.
Proof.
  intros Hnames. revert s total.
  induction ticks as [|t ticks IH]; intros s total Hs HU HT.
  - simpl. by rewrite N.add_0_r.
  - cbn [scan_loop].
    destruct (iteration_Total names height startTime s t total Hnames HU HT)
      as [HT' HU'].
    pose proof (iteration_status names height startTime s t) as Hst.
    cbn [accepted_records] in *.
    destruct (received t) as [|res|m]; rewrite Hst; try done.
    rewrite Hs. rewrite (IH _ _ (eq_trans Hst Hs) HU' HT').
    f_equal. destruct (nextBlock res) as [[|block]|]; lia.
Qed.

(** X17: when no signature has the display name Total, Total is the
    number of logs, other than [null] entries, of the batches the loop
    accepted before it ended: logs of a batch discarded for its missing
    or zero [nextBlock], and anything after the sentinel or an error, are
    not counted. *)
Theorem Total_counts_accepted_records sigs height startTime ticks :
  Forall (λ sig, split_head sig ≠ "Total") sigs →
  eventCounts (createScanner keccak256 toHex decodeLogs sigs height startTime
                 ticks) !! "Total"
  = Some (accepted_records ticks).
Proof.
  intros Hsigs. destruct (init_tables_zero keccak256 toHex sigs) as (Hz & HT & HU).
  unfold createScanner.
  rewrite (scan_loop_Total _ height startTime ticks _ 0%N); try done.
  by apply init_tables_names.
Qed.

Lemma scan_loop_fromBlock names height startTime ticks s :
  status s = Streaming →
  fromBlock (scan_loop decodeLogs names height startTime s ticks) =
    last_cursor (fromBlock s) ticks.
Proof.
  revert s. induction ticks as [|t ticks IH]; intros s Hs; [done|].
  cbn [scan_loop last_cursor].
  pose proof (iteration_status names height startTime s t) as Hst.
  unfold iteration in *.
  destruct (received t) as [|res|m]; rewrite Hst; try done.
  rewrite Hs. rewrite IH by by rewrite Hst.
  destruct (nextBlock res) as [[|block]|]; done.
Qed.

Lemma last_cursor_ge from ticks :
  cursors_advance from ticks → (from ≤ last_cursor from ticks)%N.
Proof.
  revert from. induction ticks as [|t ticks IH]; intros from; simpl; [lia|].
  unfold cursor. destruct (received t) as [|res|m]; try lia.
  destruct (nextBlock res) as [[|block]|]; try apply IH.
  intros [Hle Hadv]. specialize (IH _ Hadv). lia.
Qed.

Lemma last_cursor_app_ge ticks1 ticks2 from :
  cursors_advance from (ticks1 ++ ticks2)%list →
  (last_cursor from ticks1 ≤ last_cursor from (ticks1 ++ ticks2)%list)%N.
Proof.
  revert from. induction ticks1 as [|t ticks1 IH]; intros from.
  - simpl. apply last_cursor_ge.
  - cbn [app cursors_advance last_cursor]. unfold cursor.
    destruct (received t) as [|res|m]; try lia.
    destruct (nextBlock res) as [[|block]|]; try apply IH.
    intros [_ Hadv]. by apply IH.
Qed.

(** X18: the cursor of the query is the [nextBlock] of the last accepted
    batch (0 before the first); a discarded batch does not move it.  When
    no accepted [nextBlock] is behind the one before it, the cursor never
    moves back as more turns are taken. *)
Theorem cursor_follows_accepted_batches sigs height startTime ticks1 ticks2 :
  let scan := createScanner keccak256 toHex decodeLogs sigs height startTime in
  fromBlock (scan ticks1) = last_cursor 0 ticks1 ∧
  (cursors_advance 0 (ticks1 ++ ticks2)%list →
   (fromBlock (scan ticks1) ≤ fromBlock (scan (ticks1 ++ ticks2)%list))%N).
Proof.
  intros scan. subst scan. unfold createScanner.
  rewrite !scan_loop_fromBlock by done. split; [done|].
  apply last_cursor_app_ge.
Qed.

End Loop.

Lemma loop_ends_at_sentinel_or_error_witness :
  status (scan_loop decoder_stub ∅ 10 0%Q (start hash_stub hex_stub [])
            [batch_at 0 1%Q; batch_at 4 2%Q; mkTick recv_null 3%Q;
             batch_at 9 4%Q])
  = Complete.
Proof.
  apply (loop_ends_at_sentinel_or_error decoder_stub ∅ 10 0%Q (start hash_stub hex_stub [])
           [batch_at 0 1%Q; batch_at 4 2%Q; mkTick recv_null 3%Q;
            batch_at 9 4%Q]).
  reflexivity.
Defined.


Lemma cursor_follows_accepted_batches_witness :
  (fromBlock (createScanner hash_stub hex_stub decoder_stub [] 10 0%Q
                [batch_at 4 1%Q])
   ≤ fromBlock (createScanner hash_stub hex_stub decoder_stub [] 10 0%Q
                  ([batch_at 4 1%Q] ++ [batch_at 0 2%Q; batch_at 9 3%Q])%list))%N.
Proof.
  apply (proj2 (cursor_follows_accepted_batches hash_stub hex_stub decoder_stub [] 10 0%Q [batch_at 4 1%Q]
                  [batch_at 0 2%Q; batch_at 9 3%Q])).
  simpl. lia.
Defined.

Lemma Total_counts_accepted_records_witness :
  eventCounts
    (createScanner hash_stub hex_stub decoder_stub
       ["Transfer(address,address,uint256)"] 10 0%Q
       [mkTick (recv_response
                  (mkResponse (Some 4%N)
                     (Some [Some (mkLog None); None; Some (mkLog (Some []))])))
               1%Q;
        mkTick (recv_response (mkResponse None (Some [Some (mkLog None)]))) 2%Q])
    !! "Total"
  = Some 2%N.
Proof.
  apply (Total_counts_accepted_records hash_stub hex_stub decoder_stub
           ["Transfer(address,address,uint256)"] 10 0%Q).
  repeat constructor. by vm_compute.
Defined.



Lemma preset_names_not_Total presetName sigs :
  Config.getEventSignatures presetName = Normal sigs →
  Forall (λ sig, split_head sig ≠ "Total") sigs.
Proof.
  unfold Config.getEventSignatures, Config.EVENT_PRESETS. cbn [Config.property].
  repeat case_decide; intros [= <-]; cbn [Config.signatures];
    repeat constructor; by vm_compute.
Qed.

(** X20: for each built-in preset, whatever the stream delivers, Total is
    the number of logs of the accepted batches and equals the sum of
    Unknown and the per-name counters. *)
Theorem presets_count_every_log keccak256 toHex decodeLogs presetName sigs
    height startTime ticks :
  Config.getEventSignatures presetName = Normal sigs →
  let counts :=
    eventCounts (createScanner keccak256 toHex decodeLogs sigs height
                   startTime ticks) in
  counts !! "Total" = Some (accepted_records ticks) ∧
  others_sum counts = accepted_records ticks.
Proof.
  intros Hp counts. pose proof (preset_names_not_Total _ _ Hp) as Hsigs.
  pose proof (init_tables_names keccak256 toHex sigs Hsigs) as Hnames.
  destruct (init_tables_zero keccak256 toHex sigs) as (Hz & HT0 & HU0).
  assert (HT : counts !! "Total" = Some (accepted_records ticks)).
  { subst counts. unfold createScanner.
    by rewrite (scan_loop_Total decodeLogs _ height startTime ticks _ 0%N). }
  pose proof (scan_loop_counted decodeLogs
                (init_tables keccak256 toHex sigs).1 height startTime ticks
                (start keccak256 toHex sigs) Hnames
                (all_zero_counted _ Hz HT0 HU0)) as [Hsum _].
  split; [done|]. fold (createScanner keccak256 toHex decodeLogs sigs height
                          startTime ticks) in Hsum.
  fold counts in Hsum. rewrite HT in Hsum. by injection Hsum.
Qed.

Lemma presets_count_every_log_witness :
  let counts :=
    eventCounts
      (createScanner hash_stub hex_stub decoder_stub
         ["Transfer(address,address,uint256)";
          "Approval(address,address,uint256)"] 10 0%Q
         [mkTick (recv_response
                    (mkResponse (Some 4%N) (Some [Some (mkLog None)]))) 1%Q]) in
  counts !! "Total" = Some 1%N ∧ others_sum counts = 1%N.
Proof.
  apply (presets_count_every_log hash_stub hex_stub decoder_stub "erc20"
           ["Transfer(address,address,uint256)";
            "Approval(address,address,uint256)"] 10 0%Q).
  reflexivity.
Defined.

Lemma iteration_without_log d1 d2 names height startTime s1 s2 t :
  without_log s1 = without_log s2 →
  without_log (iteration d1 names height startTime s1 t) =
  without_log (iteration d2 names height startTime s2 t).
Proof.
  destruct s1, s2. unfold without_log; simpl. intros [= -> -> -> -> -> -> -> ->].
  unfold iteration. destruct (received t) as [|res|m]; try done.
  destruct (nextBlock res) as [[|block]|]; try done.
  unfold process_logs. destruct (logs res) as [[|log0 rest]|]; try done.
  by destruct (sample d1 _ _ _), (sample d2 _ _ _).
Qed.

(** X21: the decoder used for the occasional sample has no influence on
    the scan: with any two decoders, failing or not, the counters, the
    cursor, the progress, the statistics and the end of the loop are the
    same; only lines of the log window can differ. *)
Theorem decoder_cannot_affect_counts keccak256 toHex d1 d2 sigs height
    startTime ticks :
  without_log (createScanner keccak256 toHex d1 sigs height startTime ticks) =
  without_log (createScanner keccak256 toHex d2 sigs height startTime ticks).
Proof.
  unfold createScanner.
  generalize (init_tables keccak256 toHex sigs).1 as names.
  intros names.
  assert (H0 : without_log (start keccak256 toHex sigs)
               = without_log (start keccak256 toHex sigs)) by done.
  revert H0.
  generalize (start keccak256 toHex sigs) at 1 3 as s1.
  generalize (start keccak256 toHex sigs) as s2.
  intros s2 s1. revert s1 s2.
  induction ticks as [|t ticks IH]; intros s1 s2 Hs; [done|].
  cbn [scan_loop].
  pose proof (iteration_without_log d1 d2 names height startTime s1 s2 t Hs)
    as Hi.
  assert (Hst : status (iteration d1 names height startTime s1 t)
                = status (iteration d2 names height startTime s2 t))
    by (unfold without_log in Hi; by injection Hi).
  rewrite <- Hst. destruct (status _); auto.
Qed.

End ScannerFacts.
